(** * Multi-signature governance of the Event Registry contract

    Shallow embedding of the governance engine of the Event Registry
    contract (proposals to change the platform wallet, the admin set and
    the approval threshold).  The contract's Rust files (lib.rs,
    storage.rs, types.rs) are not in the repository snapshot; their types
    are quoted in the implementation notes, and the behaviour of the
    engine is modelled from the specification (sections 3 and 4).  Each
    public contract call is a computation in a small state/error monad
    over the contract storage: a failing call returns its error together
    with the storage as it stands at the point of failure, so that the
    all-or-nothing behaviour of a call is a property to prove and not a
    consequence of the encoding. *)

From stdpp Require Import base gmap list.
From Stdlib Require Import Lia Sorted.

(* ------------------------------------------------------------------ *)
(** ** Types (types.rs, error.rs) *)

(** An [Address] is an opaque principal; ledger sequence numbers are
    natural numbers. *)
Definition Address := nat.

Inductive ProposalType :=
| SetPlatformWallet (wallet : Address)
| AddAdmin (admin : Address)
| RemoveAdmin (admin : Address)
| SetThreshold (threshold : nat).

Record MultiSigConfig := {
  admins : list Address;
  threshold : nat;
}.

Record Proposal := {
  proposal_id : nat;
  proposal_type : ProposalType;
  proposer : Address;
  approvals : list Address;
  created_at : nat;
  expires_at : option nat;   (* [None] is the "never expires" sentinel *)
  executed : bool;
}.

Inductive EventRegistryError :=
| Unauthorized
| InvalidAddress
| ProposalNotFound
| ProposalAlreadyExecuted
| ProposalExpired
| AlreadyApproved
| InsufficientApprovals
| InvalidThreshold
| AdminAlreadyExists
| AdminNotFound
| CannotRemoveLastAdmin
| InvalidProposalType.

(** Contract storage: the keys [DataKey::MultiSigConfig],
    [DataKey::Proposal(id)], [DataKey::ActiveProposals] and
    [DataKey::ProposalCounter], plus the platform settings written by
    [initialize] and the contract's own address (used by address
    validation). *)
Record State := {
  multisig_config : MultiSigConfig;
  platform_wallet : Address;
  platform_fee_percent : nat;
  proposals : gmap nat Proposal;
  active_proposals : list nat;
  proposal_counter : nat;
  current_contract : Address;
}.

(** Result of a contract call. *)
Inductive Res (A : Type) :=
| Ok (a : A)
| Err (e : EventRegistryError).
Arguments Ok {A} a.
Arguments Err {A} e.

(** A contract call: reads and writes storage, may stop with an error. *)
Definition M (A : Type) := State -> Res A * State.

Definition ret {A} (a : A) : M A := fun st => (Ok a, st).
Definition fail {A} (e : EventRegistryError) : M A := fun st => (Err e, st).
Definition bind {A B} (m : M A) (k : A -> M B) : M B :=
  fun st => match m st with
            | (Ok a, st') => k a st'
            | (Err e, st') => (Err e, st')
            end.

Notation "'let*' x := m 'in' k" := (bind m (fun x => k))
  (at level 200, x name, m at level 100, k at level 200).
Notation "m ;;; k" := (bind m (fun _ => k)) (at level 100, right associativity).

Definition get_state : M State := fun st => (Ok st, st).
Definition modify (f : State -> State) : M unit := fun st => (Ok tt, f st).

(* ------------------------------------------------------------------ *)
(** ** Storage layer (storage.rs) *)

Definition mem (a : Address) (l : list Address) : bool := existsb (Nat.eqb a) l.

(** [storage::is_admin]: membership in the current admin list. *)
Definition is_admin_in (cfg : MultiSigConfig) (a : Address) : bool := mem a (admins cfg).

Definition get_multisig_config : M MultiSigConfig :=
  fun st => (Ok (multisig_config st), st).

Definition set_multisig_config (cfg : MultiSigConfig) : M unit :=
  modify (fun st => {| multisig_config := cfg;
                       platform_wallet := platform_wallet st;
                       platform_fee_percent := platform_fee_percent st;
                       proposals := proposals st;
                       active_proposals := active_proposals st;
                       proposal_counter := proposal_counter st;
                       current_contract := current_contract st |}).

Definition set_platform_wallet (w : Address) : M unit :=
  modify (fun st => {| multisig_config := multisig_config st;
                       platform_wallet := w;
                       platform_fee_percent := platform_fee_percent st;
                       proposals := proposals st;
                       active_proposals := active_proposals st;
                       proposal_counter := proposal_counter st;
                       current_contract := current_contract st |}).

Definition store_proposal (p : Proposal) : M unit :=
  modify (fun st => {| multisig_config := multisig_config st;
                       platform_wallet := platform_wallet st;
                       platform_fee_percent := platform_fee_percent st;
                       proposals := <[proposal_id p := p]> (proposals st);
                       active_proposals := active_proposals st;
                       proposal_counter := proposal_counter st;
                       current_contract := current_contract st |}).

Definition set_active_proposals (l : list nat) : M unit :=
  modify (fun st => {| multisig_config := multisig_config st;
                       platform_wallet := platform_wallet st;
                       platform_fee_percent := platform_fee_percent st;
                       proposals := proposals st;
                       active_proposals := l;
                       proposal_counter := proposal_counter st;
                       current_contract := current_contract st |}).

Definition set_proposal_counter (n : nat) : M unit :=
  modify (fun st => {| multisig_config := multisig_config st;
                       platform_wallet := platform_wallet st;
                       platform_fee_percent := platform_fee_percent st;
                       proposals := proposals st;
                       active_proposals := active_proposals st;
                       proposal_counter := n;
                       current_contract := current_contract st |}).

(** Modelled from the spec: storage.rs [get_next_proposal_id] (spec 4.2);
    bump the counter, return the new value (the
    first id is 1). *)
Definition get_next_proposal_id : M nat :=
  let* st := get_state in
  let id := S (proposal_counter st) in
  set_proposal_counter id ;;;
  ret id.

(** [get_proposal]: fails [ProposalNotFound] for an unknown id. *)
Definition get_proposal (id : nat) : M Proposal :=
  fun st => match proposals st !! id with
            | Some p => (Ok p, st)
            | None => (Err ProposalNotFound, st)
            end.

Definition get_active_proposals : M (list nat) :=
  fun st => (Ok (active_proposals st), st).

Definition add_to_active_proposals (id : nat) : M unit :=
  let* l := get_active_proposals in
  set_active_proposals (l ++ [id]).

Definition remove_from_active_proposals (id : nat) : M unit :=
  let* l := get_active_proposals in
  set_active_proposals (filter (fun j => j <> id) l).

(* ------------------------------------------------------------------ *)
(** ** Validation layer *)

(** [validate_threshold]: [threshold > 0 AND threshold <= admin_count]. *)
Definition validate_threshold (t admin_count : nat) : bool :=
  (0 <? t) && (t <=? admin_count).

(** [validate_address]: an address is well formed unless it is the
    contract's own address. *)
Definition validate_address (a : Address) : M unit :=
  let* st := get_state in
  if Nat.eqb a (current_contract st) then fail InvalidAddress else ret tt.

(** Expiry: [expires_at <> never AND now > expires_at]. *)
Definition is_expired (p : Proposal) (now : nat) : bool :=
  match expires_at p with
  | None => false
  | Some e => e <? now
  end.

(** [expires_at] of a proposal created at [now] with the given ttl:
    a ttl of 0 means no expiry. *)
Definition expiry_of (now expiration_ledgers : nat) : option nat :=
  if Nat.eqb expiration_ledgers 0 then None else Some (now + expiration_ledgers).

(** Number of approvals recorded by admins who are admins now. *)
Definition count_valid_approvals (p : Proposal) (cfg : MultiSigConfig) : nat :=
  length (filter (fun a => is_admin_in cfg a = true) (approvals p)).

(** Modelled from the spec: lib.rs [validate_proposal_type] (spec 4.3),
    the advisory checks made at creation.  The threshold check is the
    shared [validate_threshold] of the validation layer (spec 4.4; the
    proposal-type table of the architecture notes lists
    [0 < threshold <= admin_count] for [SetThreshold]). *)
Definition validate_proposal_type (kind : ProposalType) : M unit :=
  let* cfg := get_multisig_config in
  match kind with
  | SetPlatformWallet w => validate_address w
  | AddAdmin a =>
      validate_address a ;;;
      if is_admin_in cfg a then fail InvalidProposalType else ret tt
  | RemoveAdmin a =>
      if is_admin_in cfg a then ret tt else fail InvalidProposalType
  | SetThreshold t =>
      if validate_threshold t (length (admins cfg)) then ret tt
      else fail InvalidProposalType
  end.

(* ------------------------------------------------------------------ *)
(** ** Internal mutations (lib.rs, [*_internal]) *)

(** [remove_first a l]: [Vec::remove] at [first_index_of(a)]. *)
Fixpoint remove_first (a : Address) (l : list Address) : list Address :=
  match l with
  | [] => []
  | b :: l' => if Nat.eqb a b then l' else b :: remove_first a l'
  end.

(** Modelled from the spec: lib.rs [add_admin_internal] (spec 4.3). *)
Definition add_admin_internal (a : Address) : M unit :=
  let* cfg := get_multisig_config in
  if is_admin_in cfg a then fail AdminAlreadyExists else
  set_multisig_config {| admins := admins cfg ++ [a]; threshold := threshold cfg |}.

(** Modelled from the spec: lib.rs [remove_admin_internal] (spec 4.3).
    Removal of an admin; the threshold is clamped to the new admin count
    in the same write. *)
Definition remove_admin_internal (a : Address) : M unit :=
  let* cfg := get_multisig_config in
  if negb (is_admin_in cfg a) then fail AdminNotFound else
  if length (admins cfg) <=? 1 then fail CannotRemoveLastAdmin else
  let new_admins := remove_first a (admins cfg) in
  let new_count := length new_admins in
  let new_threshold :=
    if new_count <? threshold cfg then new_count else threshold cfg in
  set_multisig_config {| admins := new_admins; threshold := new_threshold |}.

(** Modelled from the spec: lib.rs [set_threshold_internal] (spec 4.3). *)
Definition set_threshold_internal (t : nat) : M unit :=
  let* cfg := get_multisig_config in
  if negb (validate_threshold t (length (admins cfg))) then fail InvalidThreshold else
  set_multisig_config {| admins := admins cfg; threshold := t |}.

(** Modelled from the spec: the type-specific part of [execute_proposal]. *)
Definition apply_proposal_type (kind : ProposalType) : M unit :=
  match kind with
  | SetPlatformWallet w => validate_address w ;;; set_platform_wallet w
  | AddAdmin a => add_admin_internal a
  | RemoveAdmin a => remove_admin_internal a
  | SetThreshold t => set_threshold_internal t
  end.

Definition with_approvals (p : Proposal) (l : list Address) : Proposal :=
  {| proposal_id := proposal_id p; proposal_type := proposal_type p;
     proposer := proposer p; approvals := l; created_at := created_at p;
     expires_at := expires_at p; executed := executed p |}.

Definition mark_executed (p : Proposal) : Proposal :=
  {| proposal_id := proposal_id p; proposal_type := proposal_type p;
     proposer := proposer p; approvals := approvals p; created_at := created_at p;
     expires_at := expires_at p; executed := true |}.

(** A stored proposal keeps its id, kind, proposer, creation ledger and
    expiry; its approvals only grow at the end, and [executed] only goes
    from false to true. *)
Definition proposal_extends (p p' : Proposal) : Prop :=
  proposal_id p' = proposal_id p /\ proposal_type p' = proposal_type p /\
  proposer p' = proposer p /\ created_at p' = created_at p /\
  expires_at p' = expires_at p /\
  (exists l, approvals p' = approvals p ++ l) /\
  (executed p = true -> executed p' = true).

(* ------------------------------------------------------------------ *)
(** ** Public operations *)

(** Modelled from the spec: lib.rs [initialize] (IMPLEMENTATION_SUMMARY.md).
    [initialize(admin, platform_wallet, platform_fee_percent)] on a fresh
    contract: a single admin with threshold 1, no proposals. *)
Definition initialize (admin wallet fee contract : Address) : State :=
  {| multisig_config := {| admins := [admin]; threshold := 1 |};
     platform_wallet := wallet;
     platform_fee_percent := fee;
     proposals := ∅;
     active_proposals := [];
     proposal_counter := 0;
     current_contract := contract |}.

(** [is_admin(address)]. *)
Definition is_admin (a : Address) : M bool :=
  let* cfg := get_multisig_config in ret (is_admin_in cfg a).

(** Modelled from the spec: lib.rs [create_proposal] (spec 4.3).
    [create_proposal(proposer, proposal_type, expiration_ledgers)] at
    ledger [now]. *)
Definition create_proposal (who : Address) (kind : ProposalType)
    (expiration_ledgers now : nat) : M nat :=
  let* cfg := get_multisig_config in
  if negb (is_admin_in cfg who) then fail Unauthorized else
  validate_proposal_type kind ;;;
  let* id := get_next_proposal_id in
  store_proposal {| proposal_id := id; proposal_type := kind; proposer := who;
                    approvals := [who]; created_at := now;
                    expires_at := expiry_of now expiration_ledgers;
                    executed := false |} ;;;
  add_to_active_proposals id ;;;
  ret id.

(** Modelled from the spec: lib.rs [approve_proposal] (spec 4.3), checks in
    the spec's order. *)
Definition approve_proposal (approver : Address) (id now : nat) : M unit :=
  let* p := get_proposal id in
  if executed p then fail ProposalAlreadyExecuted else
  if is_expired p now then fail ProposalExpired else
  let* cfg := get_multisig_config in
  if negb (is_admin_in cfg approver) then fail Unauthorized else
  if mem approver (approvals p) then fail AlreadyApproved else
  store_proposal (with_approvals p (approvals p ++ [approver])).

(** Modelled from the spec: lib.rs [execute_proposal] (spec 4.3), checks in
    the spec's order, then the type-specific check and the writes. *)
Definition execute_proposal (executor : Address) (id now : nat) : M unit :=
  let* p := get_proposal id in
  if executed p then fail ProposalAlreadyExecuted else
  if is_expired p now then fail ProposalExpired else
  let* cfg := get_multisig_config in
  if negb (is_admin_in cfg executor) then fail Unauthorized else
  if count_valid_approvals p cfg <? threshold cfg then fail InsufficientApprovals else
  apply_proposal_type (proposal_type p) ;;;
  store_proposal (mark_executed p) ;;;
  remove_from_active_proposals id.

(** Modelled from the spec: lib.rs convenience functions
    [propose_set_platform_wallet], [propose_add_admin],
    [propose_remove_admin] and [propose_set_threshold], documented as
    creating the corresponding proposal through [create_proposal]. *)
Definition propose_set_platform_wallet (who wallet : Address) (expiration_ledgers now : nat) : M nat :=
  create_proposal who (SetPlatformWallet wallet) expiration_ledgers now.
Definition propose_add_admin (who new_admin : Address) (expiration_ledgers now : nat) : M nat :=
  create_proposal who (AddAdmin new_admin) expiration_ledgers now.
Definition propose_remove_admin (who admin_to_remove : Address) (expiration_ledgers now : nat) : M nat :=
  create_proposal who (RemoveAdmin admin_to_remove) expiration_ledgers now.
Definition propose_set_threshold (who : Address) (new_threshold expiration_ledgers now : nat) : M nat :=
  create_proposal who (SetThreshold new_threshold) expiration_ledgers now.

(** The client-side check of QUICK_REFERENCE.md ("Check Proposal Status"):
    [proposal.approvals.len() >= config.threshold]. *)
Definition can_execute (p : Proposal) (cfg : MultiSigConfig) : bool :=
  threshold cfg <=? length (approvals p).

(** A state reached by running a call, whatever its result. *)
Definition after {A} (m : M A) (st : State) : State := snd (m st).
Definition result {A} (m : M A) (st : State) : Res A := fst (m st).

(** One public call that may change storage (queries do not). *)
Inductive call :=
| CCreate (who : Address) (kind : ProposalType) (expiration_ledgers now : nat)
| CApprove (who : Address) (id now : nat)
| CExecute (who : Address) (id now : nat).

Definition run_call (c : call) (st : State) : State :=
  match c with
  | CCreate w k e n => after (create_proposal w k e n) st
  | CApprove w i n => after (approve_proposal w i n) st
  | CExecute w i n => after (execute_proposal w i n) st
  end.

(** The caller of a call. *)
Definition call_caller (c : call) : Address :=
  match c with
  | CCreate w _ _ _ => w
  | CApprove w _ _ => w
  | CExecute w _ _ => w
  end.

(** States reachable from [initialize] by any sequence of calls. *)
Inductive reachable : State -> Prop :=
| reachable_init admin wallet fee contract :
    reachable (initialize admin wallet fee contract)
| reachable_step c st : reachable st -> reachable (run_call c st).

(** Run a list of calls in order. *)
Fixpoint run_calls (cs : list call) (st : State) : State :=
  match cs with
  | [] => st
  | c :: cs' => run_calls cs' (run_call c st)
  end.

(** Structural invariant of the configuration (I1 and I2). *)
Definition config_ok (cfg : MultiSigConfig) : Prop :=
  1 <= threshold cfg <= length (admins cfg) /\ 1 <= length (admins cfg).

(* ------------------------------------------------------------------ *)
(** ** Scenarios of the specification (section 8) *)

Definition sA := initialize 1 100 5 999.
Definition sA1 := run_calls [CCreate 1 (AddAdmin 2) 0 0; CExecute 1 1 0] sA.

Example scenario_A :
  admins (multisig_config sA1) = [1; 2] /\ threshold (multisig_config sA1) = 1.
Proof. vm_compute. auto. Qed.

Definition sB := run_calls [CCreate 1 (AddAdmin 2) 0 0; CExecute 1 1 0;
                            CCreate 1 (SetThreshold 2) 0 0; CExecute 1 2 0] sA.

Example scenario_B :
  result (execute_proposal 1 3 0) (after (create_proposal 1 (SetThreshold 1) 0 0) sB)
    = Err InsufficientApprovals /\
  threshold (multisig_config
    (run_calls [CCreate 1 (SetThreshold 1) 0 0; CApprove 2 3 0; CExecute 1 3 0] sB)) = 1.
Proof. vm_compute. auto. Qed.

Definition sC := run_calls [CCreate 1 (AddAdmin 2) 0 0; CExecute 1 1 0;
                            CCreate 1 (RemoveAdmin 2) 0 0; CExecute 1 2 0] sA.

Example scenario_C :
  admins (multisig_config sC) = [1] /\ threshold (multisig_config sC) = 1.
Proof. vm_compute. auto. Qed.

Example scenario_D :
  result (execute_proposal 1 1 0) (after (create_proposal 1 (RemoveAdmin 1) 0 0) sA)
    = Err CannotRemoveLastAdmin.
Proof. vm_compute. reflexivity. Qed.

Example scenario_E :
  result (approve_proposal 1 1 10) (after (create_proposal 1 (AddAdmin 2) 5 0) sA)
    = Err ProposalExpired.
Proof. vm_compute. reflexivity. Qed.

(** The error, if any, returned by a call. *)
Definition res_error {A} (r : Res A) : option EventRegistryError :=
  match r with Ok _ => None | Err e => Some e end.

Definition call_error (c : call) (st : State) : option EventRegistryError :=
  match c with
  | CCreate w k e n => res_error (result (create_proposal w k e n) st)
  | CApprove w i n => res_error (result (approve_proposal w i n) st)
  | CExecute w i n => res_error (result (execute_proposal w i n) st)
  end.

(* ------------------------------------------------------------------ *)
(** ** Proof automation *)

Ltac unfold_calls :=
  unfold run_call, call_error, res_error, after, result,
    create_proposal, approve_proposal, execute_proposal,
    apply_proposal_type, add_admin_internal, remove_admin_internal,
    set_threshold_internal, validate_proposal_type, validate_address,
    get_next_proposal_id, add_to_active_proposals,
    remove_from_active_proposals, get_proposal, get_active_proposals,
    store_proposal, set_active_proposals, set_proposal_counter,
    set_multisig_config, set_platform_wallet, get_multisig_config,
    get_state, modify, bind, ret, fail, validate_threshold, is_admin_in in *;
  simpl in *.

Ltac split_calls :=
  repeat (case_match; simplify_eq/=; try done).



Ltac bool_arith :=
  repeat match goal with
  | H : (_ <=? _) = true |- _ => apply Nat.leb_le in H
  | H : (_ <=? _) = false |- _ => apply Nat.leb_gt in H
  | H : (_ <? _) = true |- _ => apply Nat.ltb_lt in H
  | H : (_ <? _) = false |- _ => apply Nat.ltb_ge in H
  | H : (_ && _) = true |- _ => apply andb_true_iff in H; destruct H
  | H : (_ && _) = false |- _ => apply andb_false_iff in H; destruct H
  | H : negb _ = false |- _ => apply negb_false_iff in H
  | H : negb _ = true |- _ => apply negb_true_iff in H
  end.

Lemma mem_true a l : mem a l = true <-> In a l.
Proof.
  unfold mem. rewrite existsb_exists. split.
  - intros [b [Hb Heq]]. apply Nat.eqb_eq in Heq. subst. done.
  - intros H. exists a. rewrite Nat.eqb_refl. done.
Qed.

Lemma length_remove_first a l :
  In a l -> length (remove_first a l) = length l - 1.
Proof.
  induction l as [|b l IH]; simpl; [done|].
  intros [->|Hin].
  - rewrite Nat.eqb_refl. lia.
  - destruct (Nat.eqb a b) eqn:E; simpl; [lia|].
    rewrite IH by done. destruct l; simpl in *; [done|lia].
Qed.

(** Every stored proposal sits under its own id, and no id exceeds the
    counter. *)
Definition store_ok (st : State) : Prop :=
  forall k p, proposals st !! k = Some p ->
    proposal_id p = k /\ k <= proposal_counter st.

Definition inv (st : State) : Prop :=
  config_ok (multisig_config st) /\ store_ok st.

Lemma inv_initialize admin wallet fee contract :
  inv (initialize admin wallet fee contract).
Proof.
  split.
  - unfold config_ok; simpl; lia.
  - intros k p H. simpl in H. rewrite lookup_empty in H. done.
Qed.

Lemma store_ok_insert st j (p : Proposal) :
  store_ok st -> proposal_id p = j -> j <= proposal_counter st ->
  forall k q, <[j := p]> (proposals st) !! k = Some q ->
    proposal_id q = k /\ k <= proposal_counter st.
Proof.
  intros Hs Hid Hle k q Hk. apply lookup_insert_Some in Hk as [[<- <-]|[_ Hk]].
  - done.
  - by apply Hs.
Qed.

Lemma config_ok_remove cfg a :
  config_ok cfg -> In a (admins cfg) -> 1 < length (admins cfg) ->
  config_ok {| admins := remove_first a (admins cfg);
               threshold := if length (remove_first a (admins cfg)) <? threshold cfg
                            then length (remove_first a (admins cfg))
                            else threshold cfg |}.
Proof.
  intros [[H1 H2] H3] Hin Hlen. unfold config_ok; simpl.
  rewrite (length_remove_first _ _ Hin).
  destruct (length (admins cfg) - 1 <? threshold cfg) eqn:E; bool_arith; lia.
Qed.

Lemma inv_run_call c st : inv st -> inv (run_call c st).
Proof.
  intros [Hc Hs].
  destruct c as [w k x n | w i n | w i n]; unfold_calls.
  - destruct k; split_calls; split; try done; simpl;
      intros k' q Hk; cbn in Hk |- *; apply lookup_insert_Some in Hk as [[<- <-]|[_ Hk]]; simpl;
      try lia; destruct (Hs _ _ Hk); lia.
  - split_calls; split; try done.
    intros k q Hk; cbn in Hk |- *; revert Hk.
    match goal with H : proposals _ !! i = Some _ |- _ => destruct (Hs _ _ H) end.
    apply store_ok_insert; [done|reflexivity|lia].
  - split_calls.
    all: split; [|intros k q Hk; cbn in Hk |- *; revert Hk;
       match goal with H : proposals _ !! _ = Some ?p |- context [mark_executed ?p] =>
         destruct (Hs _ _ H) end;
       apply store_ok_insert; [done|reflexivity|lia]].
    all: unfold config_ok in *; simpl in *; bool_arith.
    all: try rewrite length_app; simpl; try lia.
    all: match goal with H : mem ?a _ = true |- _ =>
        apply mem_true in H; rewrite length_remove_first by done end; lia.
Qed.

Lemma reachable_inv st : reachable st -> inv st.
Proof.
  induction 1; [apply inv_initialize | by apply inv_run_call].
Qed.

Lemma reachable_run_calls cs st : reachable st -> reachable (run_calls cs st).
Proof.
  revert st; induction cs as [|c cs IH]; simpl; [done|].
  intros st H. apply IH. by constructor.
Qed.

(** A stored proposal stays stored under its id, keeps its kind and its
    expiry, and is left untouched once executed. *)
Ltac insert_cases Hs Hp :=
  match goal with
  | H : proposals _ !! _ = Some ?q |- context [<[proposal_id ?q := _]> _ !! ?k] =>
      destruct (Hs _ _ H) as [Hq _];
      destruct (decide (proposal_id q = k)) as [Heq|Hne];
      [ rewrite <- Heq in Hp |- *; rewrite Hq in Hp; rewrite Hq;
        rewrite H in Hp; injection Hp as <-; rewrite lookup_insert_eq
      | rewrite lookup_insert_ne by done ]
  end.

Lemma lookup_run_call c st pid p :
  inv st -> proposals st !! pid = Some p ->
  exists p', proposals (run_call c st) !! pid = Some p' /\
    proposal_type p' = proposal_type p /\ expires_at p' = expires_at p /\
    (executed p = true -> p' = p).
Proof.
  intros [_ Hs] Hp.
  destruct c as [w k x n | w i n | w i n]; unfold_calls.
  - destruct (Hs _ _ Hp) as [_ Hle].
    destruct k; split_calls; try (exists p; done); cbn;
      rewrite lookup_insert_ne by lia; eauto.
  - split_calls; try (exists p; done); cbn.
    all: insert_cases Hs Hp; [eexists; split; [reflexivity|]; simpl; split; [done|split;[done|]];
      intros; congruence | exists p; done].
  - split_calls; try (exists p; done); cbn.
    all: insert_cases Hs Hp; [eexists; split; [reflexivity|]; simpl; split; [done|split;[done|]];
      intros; congruence | exists p; done].
Qed.

Lemma lookup_run_calls cs st pid p :
  inv st -> proposals st !! pid = Some p ->
  exists p', proposals (run_calls cs st) !! pid = Some p' /\
    proposal_type p' = proposal_type p /\ expires_at p' = expires_at p /\
    (executed p = true -> p' = p).
Proof.
  revert st p; induction cs as [|c cs IH]; simpl; intros st p Hi Hp.
  - exists p. done.
  - destruct (lookup_run_call c st pid p Hi Hp) as (p1 & H1 & Ht1 & He1 & Hx1).
    destruct (IH (run_call c st) p1 (inv_run_call c st Hi) H1) as (p2 & H2 & Ht2 & He2 & Hx2).
    exists p2. repeat split; try congruence.
    intros Hx. rewrite Hx2 by (rewrite Hx1 by done; done). by apply Hx1.
Qed.

(** [apply_proposal_type] only ever fails with a type-specific error. *)
Lemma apply_proposal_type_errors kind st e :
  fst (apply_proposal_type kind st) = Err e ->
  e = InvalidAddress \/ e = AdminAlreadyExists \/ e = AdminNotFound \/
  e = CannotRemoveLastAdmin \/ e = InvalidThreshold.
Proof.
  destruct kind; unfold_calls; split_calls; intros Hr; simplify_eq; tauto.
Qed.

(* ------------------------------------------------------------------ *)
(** ** Concrete states used by the witnesses *)

(** Admins [1; 2], threshold 2, proposals 1 and 2 executed. *)
Definition pB3 : Proposal :=
  {| proposal_id := 3; proposal_type := SetThreshold 1; proposer := 1;
     approvals := [1]; created_at := 0; expires_at := None; executed := false |}.
Definition sB3 := after (create_proposal 1 (SetThreshold 1) 0 0) sB.

(** Proposal 1 of [sB], already executed. *)
Definition pB1 : Proposal :=
  {| proposal_id := 1; proposal_type := AddAdmin 2; proposer := 1;
     approvals := [1]; created_at := 0; expires_at := None; executed := true |}.


(* ------------------------------------------------------------------ *)
(** ** Claims *)

(** C1 (as stated, refuted): execution of a proposal that has already been
    executed fails with [ProposalAlreadyExecuted], not
    [InsufficientApprovals], although its current-admin approvals are
    below the threshold. *)
Lemma execute_threshold_gate_counterexample :
  match proposals sB !! 1 with
  | Some p =>
      count_valid_approvals p (multisig_config sB) < threshold (multisig_config sB) /\
      result (execute_proposal 1 1 0) sB = Err ProposalAlreadyExecuted
  | None => False
  end.
Proof. vm_compute. split; [auto | reflexivity]. Qed.

(** C1 (amended): the checks of [execute_proposal] come in the order
    proposal found ([ProposalNotFound]), not executed
    ([ProposalAlreadyExecuted], whatever its approvals), not expired
    ([ProposalExpired]), executor a current admin ([Unauthorized]); once
    they all pass, [execute_proposal] fails with [InsufficientApprovals]
    exactly when the approvals recorded by admins that are admins now are
    fewer than the current threshold. *)
Theorem execute_threshold_gate st w pid now :
  (proposals st !! pid = None ->
   result (execute_proposal w pid now) st = Err ProposalNotFound) /\
  forall p, proposals st !! pid = Some p ->
  (executed p = true ->
   result (execute_proposal w pid now) st = Err ProposalAlreadyExecuted) /\
  (executed p = false -> is_expired p now = true ->
   result (execute_proposal w pid now) st = Err ProposalExpired) /\
  (executed p = false -> is_expired p now = false ->
   is_admin_in (multisig_config st) w = false ->
   result (execute_proposal w pid now) st = Err Unauthorized) /\
  (executed p = false -> is_expired p now = false ->
   is_admin_in (multisig_config st) w = true ->
   (result (execute_proposal w pid now) st = Err InsufficientApprovals <->
    count_valid_approvals p (multisig_config st) < threshold (multisig_config st))).
Proof.
  split.
  { intros Hn. unfold result, execute_proposal, bind, get_proposal. by rewrite Hn. }
  intros p Hp. split; [|split; [|split]].
  - intros Hx. unfold result, execute_proposal, bind, get_proposal.
    by rewrite Hp, Hx.
  - intros Hx He. unfold result, execute_proposal, bind, get_proposal.
    by rewrite Hp, Hx, He.
  - intros Hx He Ha. unfold result, execute_proposal, bind, get_proposal.
    rewrite Hp, Hx, He. unfold get_multisig_config. by rewrite Ha.
  - intros Hx He Ha. unfold result, execute_proposal, bind, get_proposal.
    rewrite Hp, Hx, He. unfold get_multisig_config. rewrite Ha. simpl.
    destruct (count_valid_approvals p (multisig_config st) <? threshold (multisig_config st)) eqn:E;
      bool_arith.
    + simpl. done.
    + split; [|lia]. intros Hr.
      destruct (apply_proposal_type (proposal_type p) st) as [[u|e] st1] eqn:Ea.
      * unfold store_proposal, remove_from_active_proposals, get_active_proposals,
          set_active_proposals, modify in Hr. simpl in Hr. discriminate.
      * simpl in Hr. injection Hr as ->.
        pose proof (apply_proposal_type_errors (proposal_type p) st InsufficientApprovals)
          as Hk. rewrite Ea in Hk. simpl in Hk. specialize (Hk eq_refl).
        repeat destruct Hk as [Hk|Hk]; discriminate.
Qed.

Lemma execute_threshold_gate_witness :
  proposals sB3 !! 3 = Some pB3 /\
  (result (execute_proposal 1 3 0) sB3 = Err InsufficientApprovals <->
   count_valid_approvals pB3 (multisig_config sB3) < threshold (multisig_config sB3)) /\
  result (execute_proposal 1 1 0) sB = Err ProposalAlreadyExecuted.
Proof.
  assert (Hp : proposals sB3 !! 3 = Some pB3) by (vm_compute; reflexivity).
  split; [exact Hp|]. split.
  - destruct (execute_threshold_gate sB3 1 3 0) as [_ H].
    destruct (H pB3 Hp) as (_ & _ & _ & Hg).
    apply Hg; vm_compute; reflexivity.
  - destruct (execute_threshold_gate sB 1 1 0) as [_ H].
    destruct (H pB1) as (Hg & _); [vm_compute; reflexivity|].
    apply Hg; vm_compute; reflexivity.
Defined.

(** C2: in every state reachable from [initialize] by any sequence of
    calls, [1 <= threshold <= |admins|] and [|admins| >= 1]. *)
Theorem reachable_config_ok st :
  reachable st -> config_ok (multisig_config st).
Proof. intros H. apply (reachable_inv st H). Qed.

Lemma reachable_config_ok_witness :
  reachable sC /\ config_ok (multisig_config sC).
Proof.
  assert (H : reachable sC) by (apply reachable_run_calls, reachable_init).
  split; [exact H | apply (reachable_config_ok sC H)].
Defined.

(** C6: a call that returns an error leaves the whole storage (config,
    proposals, active index, counter) as it was. *)
Theorem failed_call_has_no_effect c st e :
  call_error c st = Some e -> run_call c st = st.
Proof.
  destruct c as [w k x n | w i n | w i n]; unfold_calls.
  - destruct k; split_calls.
  - split_calls.
  - split_calls.
Qed.
Lemma failed_call_has_no_effect_witness :
  call_error (CExecute 1 1 0) sB = Some ProposalAlreadyExecuted /\
  run_call (CExecute 1 1 0) sB = sB.
Proof.
  assert (H : call_error (CExecute 1 1 0) sB = Some ProposalAlreadyExecuted)
    by (vm_compute; reflexivity).
  split; [exact H | apply (failed_call_has_no_effect _ _ _ H)].
Defined.

(** C10: right after [initialize], the multi-sig configuration holds
    exactly the initial admin with threshold 1, and satisfies the
    structural invariant. *)
Theorem initialize_config admin wallet fee contract :
  result get_multisig_config (initialize admin wallet fee contract)
    = Ok {| admins := [admin]; threshold := 1 |} /\
  config_ok (multisig_config (initialize admin wallet fee contract)).
Proof. split; [reflexivity | unfold config_ok; simpl; lia]. Qed.

(** Admin set reduced to [1] while proposal 3 still asks to remove 2. *)
Definition sR := run_calls [CCreate 1 (AddAdmin 2) 0 0; CExecute 1 1 0;
                            CCreate 1 (RemoveAdmin 2) 0 0; CCreate 1 (RemoveAdmin 2) 0 0;
                            CExecute 1 2 0] sA.

Definition pD : Proposal :=
  {| proposal_id := 1; proposal_type := RemoveAdmin 1; proposer := 1;
     approvals := [1]; created_at := 0; expires_at := None; executed := false |}.
Definition sD := after (create_proposal 1 (RemoveAdmin 1) 0 0) sA.

(** C3 (as stated, refuted): with a single admin left, a [RemoveAdmin]
    proposal naming an address that is no longer an admin fails with
    [AdminNotFound], not [CannotRemoveLastAdmin]. *)
Lemma remove_last_admin_guard_counterexample :
  reachable sR /\
  match proposals sR !! 3 with
  | Some p =>
      proposal_type p = RemoveAdmin 2 /\
      length (admins (multisig_config sR)) = 1 /\
      result (execute_proposal 1 3 0) sR = Err AdminNotFound
  | None => False
  end.
Proof.
  split; [apply reachable_run_calls, reachable_init|].
  vm_compute. auto.
Qed.

(** C3 (amended): with a single admin, executing a [RemoveAdmin x]
    proposal never succeeds and never changes the storage, however many
    approvals it has; when [x] is that admin and the checks before the
    type-specific one pass, the error is [CannotRemoveLastAdmin].  The
    error is in every case the first failing check: not executed, not
    expired, executor an admin, threshold met, then [AdminNotFound] when
    [x] is no longer an admin and [CannotRemoveLastAdmin] otherwise. *)
Theorem remove_last_admin_guard st w pid now p x :
  proposals st !! pid = Some p -> proposal_type p = RemoveAdmin x ->
  length (admins (multisig_config st)) = 1 ->
  (result (execute_proposal w pid now) st <> Ok tt /\
   after (execute_proposal w pid now) st = st) /\
  (admins (multisig_config st) = [x] -> executed p = false -> is_expired p now = false ->
   is_admin_in (multisig_config st) w = true ->
   threshold (multisig_config st) <= count_valid_approvals p (multisig_config st) ->
   result (execute_proposal w pid now) st = Err CannotRemoveLastAdmin) /\
  result (execute_proposal w pid now) st =
    Err (if executed p then ProposalAlreadyExecuted
         else if is_expired p now then ProposalExpired
         else if negb (is_admin_in (multisig_config st) w) then Unauthorized
         else if count_valid_approvals p (multisig_config st) <?
                 threshold (multisig_config st) then InsufficientApprovals
         else if is_admin_in (multisig_config st) x then CannotRemoveLastAdmin
         else AdminNotFound).
Proof.
  intros Hp Ht Hl.
  unfold result, after, execute_proposal, bind, get_proposal. rewrite Hp.
  unfold apply_proposal_type. rewrite Ht.
  unfold remove_admin_internal, get_multisig_config, bind, fail, ret, is_admin_in.
  split; [|split].
  - repeat case_match; simplify_eq/=; bool_arith; try done; lia.
  - intros Hadm Hx He Ha Hc. unfold is_admin_in in Ha.
    rewrite Hx, He, Ha. simpl.
    destruct (count_valid_approvals p (multisig_config st) <? threshold (multisig_config st))
      eqn:E; bool_arith; [lia|].
    rewrite Hadm. simpl. rewrite Nat.eqb_refl. reflexivity.
  - repeat case_match; simplify_eq/=; bool_arith; try done; lia.
Qed.

Definition pR3 : Proposal :=
  {| proposal_id := 3; proposal_type := RemoveAdmin 2; proposer := 1;
     approvals := [1]; created_at := 0; expires_at := None; executed := false |}.

Lemma remove_last_admin_guard_witness :
  proposals sD !! 1 = Some pD /\ proposal_type pD = RemoveAdmin 1 /\
  length (admins (multisig_config sD)) = 1 /\
  result (execute_proposal 1 1 0) sD = Err CannotRemoveLastAdmin /\
  proposals sR !! 3 = Some pR3 /\ length (admins (multisig_config sR)) = 1 /\
  result (execute_proposal 1 3 0) sR = Err AdminNotFound.
Proof.
  assert (Hp : proposals sD !! 1 = Some pD) by (vm_compute; reflexivity).
  assert (Hl : length (admins (multisig_config sD)) = 1) by (vm_compute; reflexivity).
  assert (Hq : proposals sR !! 3 = Some pR3) by (vm_compute; reflexivity).
  assert (Hm : length (admins (multisig_config sR)) = 1) by (vm_compute; reflexivity).
  split; [exact Hp|]. split; [reflexivity|]. split; [exact Hl|].
  split.
  { destruct (remove_last_admin_guard sD 1 1 0 pD 1 Hp eq_refl Hl) as (_ & Hg & _).
    apply Hg; vm_compute; try reflexivity; auto. }
  split; [exact Hq|]. split; [exact Hm|].
  destruct (remove_last_admin_guard sR 1 3 0 pR3 2 Hq eq_refl Hm) as (_ & _ & He).
  rewrite He. vm_compute. reflexivity.
Defined.

(** Admins [1; 2], threshold 2, proposal 3 removes admin 2 and carries
    both approvals. *)
Definition pE : Proposal :=
  {| proposal_id := 3; proposal_type := RemoveAdmin 2; proposer := 1;
     approvals := [1; 2]; created_at := 0; expires_at := None; executed := false |}.
Definition sE := run_calls [CCreate 1 (RemoveAdmin 2) 0 0; CApprove 2 3 0] sB.

(** C4: a successful [RemoveAdmin x] execution removes [x] and, in the
    same configuration write, lowers the threshold to the new admin
    count when that count is below the old threshold; the threshold
    after the call never exceeds the admin count. *)
Theorem remove_admin_clamps_threshold st w pid now p x :
  proposals st !! pid = Some p -> proposal_type p = RemoveAdmin x ->
  result (execute_proposal w pid now) st = Ok tt ->
  let cfg := multisig_config st in
  let cfg' := multisig_config (after (execute_proposal w pid now) st) in
  admins cfg' = remove_first x (admins cfg) /\
  (length (admins cfg') < threshold cfg -> threshold cfg' = length (admins cfg')) /\
  (threshold cfg <= length (admins cfg') -> threshold cfg' = threshold cfg) /\
  threshold cfg' <= length (admins cfg').
Proof.
  intros Hp Ht Hr cfg cfg'. subst cfg cfg'. revert Hr.
  unfold result, after, execute_proposal, bind, get_proposal. rewrite Hp.
  unfold apply_proposal_type. rewrite Ht.
  unfold remove_admin_internal, get_multisig_config, set_multisig_config,
    store_proposal, remove_from_active_proposals, get_active_proposals,
    set_active_proposals, modify, bind, fail, ret.
  repeat case_match; simplify_eq/=; bool_arith; try done.
  all: intros _; repeat split; intros; lia.
Qed.

Lemma remove_admin_clamps_threshold_witness :
  proposals sE !! 3 = Some pE /\
  result (execute_proposal 1 3 0) sE = Ok tt /\
  admins (multisig_config (after (execute_proposal 1 3 0) sE)) = [1] /\
  threshold (multisig_config (after (execute_proposal 1 3 0) sE)) = 1.
Proof.
  assert (Hp : proposals sE !! 3 = Some pE) by (vm_compute; reflexivity).
  assert (Hr : result (execute_proposal 1 3 0) sE = Ok tt) by (vm_compute; reflexivity).
  destruct (remove_admin_clamps_threshold sE 1 3 0 pE 2 Hp eq_refl Hr)
    as (Ha & Hc & _ & _).
  split; [exact Hp|]. split; [exact Hr|].
  rewrite Ha. split; [vm_compute; reflexivity|].
  rewrite Hc; rewrite Ha; vm_compute; auto.
Defined.

(** C5: once a proposal is executed it stays stored unchanged (so
    [executed] never goes back to false) under any further sequence of
    calls, and every later [approve_proposal] or [execute_proposal] on
    its id fails with [ProposalAlreadyExecuted]. *)
Theorem executed_is_final st pid p cs who now :
  reachable st -> proposals st !! pid = Some p -> executed p = true ->
  proposals (run_calls cs st) !! pid = Some p /\
  result (approve_proposal who pid now) (run_calls cs st) = Err ProposalAlreadyExecuted /\
  result (execute_proposal who pid now) (run_calls cs st) = Err ProposalAlreadyExecuted.
Proof.
  intros Hr Hp Hx.
  destruct (lookup_run_calls cs st pid p (reachable_inv st Hr) Hp) as (p' & H' & _ & _ & Hq).
  rewrite (Hq Hx) in H'.
  split; [exact H'|].
  unfold result, approve_proposal, execute_proposal, bind, get_proposal.
  rewrite H', Hx. split; reflexivity.
Qed.

Lemma executed_is_final_witness :
  reachable sB /\ proposals sB !! 1 = Some pB1 /\
  result (approve_proposal 2 1 0) (run_calls [CCreate 2 (SetThreshold 1) 0 0] sB)
    = Err ProposalAlreadyExecuted.
Proof.
  assert (Hr : reachable sB) by (apply reachable_run_calls, reachable_init).
  assert (Hp : proposals sB !! 1 = Some pB1) by (vm_compute; reflexivity).
  split; [exact Hr|]. split; [exact Hp|].
  apply (executed_is_final sB 1 pB1 [CCreate 2 (SetThreshold 1) 0 0] 2 0 Hr Hp eq_refl).
Defined.

(** Effect of a successful [create_proposal]. *)
Lemma create_proposal_ok st who kind T now pid :
  result (create_proposal who kind T now) st = Ok pid ->
  pid = S (proposal_counter st) /\
  proposal_counter (after (create_proposal who kind T now) st) = pid /\
  proposals (after (create_proposal who kind T now) st) =
    <[pid := {| proposal_id := pid; proposal_type := kind; proposer := who;
                approvals := [who]; created_at := now;
                expires_at := expiry_of now T; executed := false |}]> (proposals st) /\
  active_proposals (after (create_proposal who kind T now) st) = active_proposals st ++ [pid].
Proof.
  destruct kind; unfold_calls; split_calls; intros Hr; simplify_eq/=; done.
Qed.

Lemma counter_run_call c st :
  proposal_counter st <= proposal_counter (run_call c st).
Proof.
  destruct c as [w k x n | w i n | w i n]; unfold_calls.
  - destruct k; split_calls; lia.
  - split_calls.
  - split_calls.
Qed.

Lemma counter_run_calls cs st :
  proposal_counter st <= proposal_counter (run_calls cs st).
Proof.
  revert st; induction cs as [|c cs IH]; simpl; intros st; [lia|].
  specialize (IH (run_call c st)). pose proof (counter_run_call c st). lia.
Qed.

(** An expired proposal blocks approval and execution; the executed
    check comes first. *)
Lemma expired_blocks_approve st w pid t p :
  proposals st !! pid = Some p -> is_expired p t = true ->
  result (approve_proposal w pid t) st =
    Err (if executed p then ProposalAlreadyExecuted else ProposalExpired).
Proof.
  intros Hp He. unfold result, approve_proposal, bind, get_proposal. rewrite Hp.
  destruct (executed p); [reflexivity|]. rewrite He. reflexivity.
Qed.

Lemma expired_blocks_execute st w pid t p :
  proposals st !! pid = Some p -> is_expired p t = true ->
  result (execute_proposal w pid t) st =
    Err (if executed p then ProposalAlreadyExecuted else ProposalExpired).
Proof.
  intros Hp He. unfold result, execute_proposal, bind, get_proposal. rewrite Hp.
  destruct (executed p); [reflexivity|]. rewrite He. reflexivity.
Qed.

Lemma not_expired_approve st w pid t p :
  proposals st !! pid = Some p -> is_expired p t = false ->
  result (approve_proposal w pid t) st <> Err ProposalExpired.
Proof.
  intros Hp He. unfold result, approve_proposal, bind, get_proposal. rewrite Hp.
  destruct (executed p); [discriminate|]. rewrite He.
  unfold get_multisig_config, store_proposal, modify, fail.
  repeat case_match; simplify_eq/=; discriminate.
Qed.

Lemma not_expired_execute st w pid t p :
  proposals st !! pid = Some p -> is_expired p t = false ->
  result (execute_proposal w pid t) st <> Err ProposalExpired.
Proof.
  intros Hp He. unfold result, execute_proposal, bind, get_proposal. rewrite Hp.
  destruct (executed p); [discriminate|]. rewrite He.
  unfold get_multisig_config, fail.
  repeat (case_match; simplify_eq/=; try discriminate).
  intros Hr. simplify_eq/=.
    pose proof (apply_proposal_type_errors (proposal_type p) st ProposalExpired) as Hk.
    match goal with H : apply_proposal_type _ _ = _ |- _ => rewrite H in Hk end.
    specialize (Hk eq_refl). repeat destruct Hk as [Hk|Hk]; discriminate.
Qed.

Definition sX := run_calls [CCreate 1 (AddAdmin 2) 5 0; CExecute 1 1 0] sA.

(** C7 (as stated, refuted): a proposal created at 0 with ttl 5 and
    executed at once fails at time 10 with [ProposalAlreadyExecuted], not
    [ProposalExpired]. *)
Lemma expiry_blocks_calls_counterexample :
  reachable sX /\
  match proposals sX !! 1 with
  | Some p =>
      created_at p = 0 /\ expires_at p = Some 5 /\
      result (approve_proposal 1 1 10) sX = Err ProposalAlreadyExecuted /\
      result (execute_proposal 1 1 10) sX = Err ProposalAlreadyExecuted
  | None => False
  end.
Proof.
  split; [apply reachable_run_calls, reachable_init|].
  vm_compute. auto.
Qed.

(** C7 (amended): for a proposal created at [t0] with ttl [T > 0], at any
    later state and any time [t > t0 + T], approval and execution fail,
    with [ProposalExpired] unless the proposal has been executed (then
    [ProposalAlreadyExecuted], checked first); with ttl 0 neither call
    ever fails with [ProposalExpired]. *)
Theorem expiry_blocks_calls st who kind T t0 pid cs w t :
  reachable st -> result (create_proposal who kind T t0) st = Ok pid ->
  let st' := run_calls cs (after (create_proposal who kind T t0) st) in
  exists p, proposals st' !! pid = Some p /\
    (0 < T -> t0 + T < t ->
       result (approve_proposal w pid t) st' =
         Err (if executed p then ProposalAlreadyExecuted else ProposalExpired) /\
       result (execute_proposal w pid t) st' =
         Err (if executed p then ProposalAlreadyExecuted else ProposalExpired)) /\
    (T = 0 ->
       result (approve_proposal w pid t) st' <> Err ProposalExpired /\
       result (execute_proposal w pid t) st' <> Err ProposalExpired).
Proof.
  intros Hr Hc st'.
  destruct (create_proposal_ok st who kind T t0 pid Hc) as (_ & _ & Hps & _).
  assert (Hi : inv (after (create_proposal who kind T t0) st))
    by (apply (reachable_inv _ (reachable_step (CCreate who kind T t0) st Hr))).
  assert (H0 : proposals (after (create_proposal who kind T t0) st) !! pid =
    Some {| proposal_id := pid; proposal_type := kind; proposer := who;
            approvals := [who]; created_at := t0;
            expires_at := expiry_of t0 T; executed := false |})
    by (rewrite Hps; apply lookup_insert_eq).
  destruct (lookup_run_calls cs _ pid _ Hi H0) as (p & Hp & _ & He & _).
  simpl in He. exists p. split; [exact Hp|]. split.
  - intros HT Ht.
    assert (Hx : is_expired p t = true).
    { unfold is_expired. rewrite He. unfold expiry_of.
      destruct (Nat.eqb T 0) eqn:E; [apply Nat.eqb_eq in E; lia|].
      apply Nat.ltb_lt. lia. }
    split; [apply expired_blocks_approve | apply expired_blocks_execute]; done.
  - intros ->.
    assert (Hx : is_expired p t = false) by (unfold is_expired; rewrite He; reflexivity).
    split; [apply (not_expired_approve _ _ _ _ p) | apply (not_expired_execute _ _ _ _ p)];
      done.
Qed.

Lemma expiry_blocks_calls_witness :
  reachable sA /\ result (create_proposal 1 (AddAdmin 2) 5 0) sA = Ok 1 /\
  exists p, proposals (run_calls [] (after (create_proposal 1 (AddAdmin 2) 5 0) sA)) !! 1
              = Some p /\
    (0 < 5 -> 0 + 5 < 10 ->
       result (approve_proposal 1 1 10) (run_calls [] (after (create_proposal 1 (AddAdmin 2) 5 0) sA)) =
         Err (if executed p then ProposalAlreadyExecuted else ProposalExpired) /\
       result (execute_proposal 1 1 10) (run_calls [] (after (create_proposal 1 (AddAdmin 2) 5 0) sA)) =
         Err (if executed p then ProposalAlreadyExecuted else ProposalExpired)) /\
    (5 = 0 ->
       result (approve_proposal 1 1 10) (run_calls [] (after (create_proposal 1 (AddAdmin 2) 5 0) sA))
         <> Err ProposalExpired /\
       result (execute_proposal 1 1 10) (run_calls [] (after (create_proposal 1 (AddAdmin 2) 5 0) sA))
         <> Err ProposalExpired).
Proof.
  assert (Hr : reachable sA) by apply reachable_init.
  assert (Hc : result (create_proposal 1 (AddAdmin 2) 5 0) sA = Ok 1) by (vm_compute; reflexivity).
  split; [exact Hr|]. split; [exact Hc|].
  exact (expiry_blocks_calls sA 1 (AddAdmin 2) 5 0 1 [] 1 10 Hr Hc).
Defined.

(** C8 (as stated, refuted): admin 1 is in the approvals of the executed
    proposal 1, and approving it again fails with
    [ProposalAlreadyExecuted], not [AlreadyApproved]. *)
Lemma reapproval_fails_counterexample :
  reachable sB /\
  match proposals sB !! 1 with
  | Some p =>
      In 1 (approvals p) /\ is_admin_in (multisig_config sB) 1 = true /\
      result (approve_proposal 1 1 0) sB = Err ProposalAlreadyExecuted
  | None => False
  end.
Proof.
  split; [apply reachable_run_calls, reachable_init|].
  vm_compute. auto.
Qed.

(** C8 (amended): approving a proposal whose approvals already contain
    the approver always fails and changes nothing; the error is
    [AlreadyApproved] when the proposal is neither executed nor expired
    and the approver is still an admin, and otherwise the error of the
    first failing earlier check ([ProposalAlreadyExecuted],
    [ProposalExpired], [Unauthorized]). *)
Theorem reapproval_fails st a pid now p :
  proposals st !! pid = Some p -> In a (approvals p) ->
  result (approve_proposal a pid now) st <> Ok tt /\
  after (approve_proposal a pid now) st = st /\
  (executed p = false -> is_expired p now = false ->
   is_admin_in (multisig_config st) a = true ->
   result (approve_proposal a pid now) st = Err AlreadyApproved) /\
  result (approve_proposal a pid now) st =
    Err (if executed p then ProposalAlreadyExecuted
         else if is_expired p now then ProposalExpired
         else if is_admin_in (multisig_config st) a then AlreadyApproved
         else Unauthorized).
Proof.
  intros Hp Ha. apply mem_true in Ha.
  unfold result, after, approve_proposal, bind, get_proposal, get_multisig_config,
    fail, is_admin_in. rewrite Hp, Ha.
  split; [|split; [|split]].
  - repeat case_match; simplify_eq/=; discriminate.
  - repeat case_match; simplify_eq/=; done.
  - intros Hx He Hadm. unfold is_admin_in in Hadm. rewrite Hx, He, Hadm. reflexivity.
  - repeat case_match; simplify_eq/=; done.
Qed.

Definition pA1 : Proposal :=
  {| proposal_id := 1; proposal_type := AddAdmin 2; proposer := 1;
     approvals := [1]; created_at := 0; expires_at := None; executed := false |}.
Definition sA1c := after (create_proposal 1 (AddAdmin 2) 0 0) sA.

Lemma reapproval_fails_witness :
  proposals sA1c !! 1 = Some pA1 /\ In 1 (approvals pA1) /\
  result (approve_proposal 1 1 0) sA1c = Err AlreadyApproved /\
  after (approve_proposal 1 1 0) sA1c = sA1c /\
  result (approve_proposal 1 1 0) sB = Err ProposalAlreadyExecuted.
Proof.
  assert (Hp : proposals sA1c !! 1 = Some pA1) by (vm_compute; reflexivity).
  assert (Hi : In 1 (approvals pA1)) by (simpl; auto).
  assert (Hq : proposals sB !! 1 = Some pB1) by (vm_compute; reflexivity).
  destruct (reapproval_fails sA1c 1 1 0 pA1 Hp Hi) as (_ & Hs & Hr & _).
  split; [exact Hp|]. split; [exact Hi|]. split; [|split; [exact Hs|]].
  - apply Hr; vm_compute; reflexivity.
  - destruct (reapproval_fails sB 1 1 0 pB1 Hq) as (_ & _ & _ & He); [simpl; auto|].
    rewrite He. reflexivity.
Defined.

(** C9: a successful [create_proposal] takes the id [counter + 1], above
    every stored id and below every id any later call can assign; the new
    proposal is stored with the proposer as sole approval, not executed,
    created now, expiring at [now + ttl] (never for ttl 0), and its id is
    appended to the active index. *)
Theorem create_proposal_fresh st who kind T now pid :
  reachable st -> result (create_proposal who kind T now) st = Ok pid ->
  let st' := after (create_proposal who kind T now) st in
  pid = S (proposal_counter st) /\
  (forall k q, proposals st !! k = Some q -> k < pid) /\
  (forall cs, pid <= proposal_counter (run_calls cs st')) /\
  proposals st' !! pid =
    Some {| proposal_id := pid; proposal_type := kind; proposer := who;
            approvals := [who]; created_at := now;
            expires_at := if Nat.eqb T 0 then None else Some (now + T);
            executed := false |} /\
  In pid (active_proposals st').
Proof.
  intros Hr Hc st'.
  destruct (create_proposal_ok st who kind T now pid Hc) as (Hid & Hcnt & Hps & Hact).
  destruct (reachable_inv st Hr) as [_ Hs].
  split; [exact Hid|]. split; [|split; [|split]].
  - intros k q Hk. destruct (Hs _ _ Hk). lia.
  - intros cs. pose proof (counter_run_calls cs st'). subst st'. lia.
  - subst st'. rewrite Hps. apply lookup_insert_eq.
  - subst st'. rewrite Hact. apply in_or_app. right. left. reflexivity.
Qed.

Lemma create_proposal_fresh_witness :
  reachable sA /\ result (create_proposal 1 (AddAdmin 2) 5 0) sA = Ok 1 /\
  proposals (after (create_proposal 1 (AddAdmin 2) 5 0) sA) !! 1 =
    Some {| proposal_id := 1; proposal_type := AddAdmin 2; proposer := 1;
            approvals := [1]; created_at := 0; expires_at := Some 5; executed := false |}.
Proof.
  assert (Hr : reachable sA) by apply reachable_init.
  assert (Hc : result (create_proposal 1 (AddAdmin 2) 5 0) sA = Ok 1) by (vm_compute; reflexivity).
  split; [exact Hr|]. split; [exact Hc|].
  destruct (create_proposal_fresh sA 1 (AddAdmin 2) 5 0 1 Hr Hc) as (_ & _ & _ & Hp & _).
  exact Hp.
Defined.

(* ------------------------------------------------------------------ *)
(** ** Further invariants of reachable states *)

Lemma remove_first_In a b l : In b (remove_first a l) -> In b l.
Proof.
  induction l as [|c l IH]; simpl; [done|].
  destruct (Nat.eqb a c); simpl; [auto|]. intros [->|H]; auto.
Qed.

Lemma NoDup_remove_first a l : NoDup l -> NoDup (remove_first a l).
Proof.
  induction l as [|c l IH]; simpl; [done|].
  intros Hn. apply NoDup_cons in Hn as [Hc Hn].
  destruct (Nat.eqb a c); [done|].
  apply NoDup_cons. split; [|by apply IH].
  intros Hin. apply Hc. by apply list_elem_of_In, (remove_first_In a), list_elem_of_In.
Qed.

(** On a list without duplicates, [remove_first a] removes exactly [a]. *)
Lemma remove_first_In_iff a b l :
  NoDup l -> In b (remove_first a l) <-> In b l /\ b <> a.
Proof.
  induction l as [|c l IH]; simpl; [tauto|].
  intros Hn. apply NoDup_cons in Hn as [Hc Hn].
  destruct (Nat.eqb a c) eqn:E.
  - apply Nat.eqb_eq in E as ->. split.
    + intros H. split; [auto|]. intros ->. apply Hc. by apply list_elem_of_In.
    + intros [[->|H] Hne]; [done|exact H].
  - apply Nat.eqb_neq in E. simpl. rewrite (IH Hn). split.
    + intros [->|[H1 H2]]; [split; [left|]; congruence | auto].
    + intros [[->|H1] H2]; [left | right]; auto.
Qed.

Lemma NoDup_snoc_mem (l : list Address) a :
  NoDup l -> mem a l = false -> NoDup (l ++ [a]).
Proof.
  intros Hn Hm. apply NoDup_app. split; [done|]. split; [|apply NoDup_singleton].
  intros b Hb Hb'. apply list_elem_of_singleton in Hb'. subst b.
  apply list_elem_of_In, mem_true in Hb. congruence.
Qed.

Definition admins_nodup (st : State) : Prop := NoDup (admins (multisig_config st)).

Definition approvals_ok (st : State) : Prop :=
  forall k p, proposals st !! k = Some p ->
    NoDup (approvals p) /\ hd_error (approvals p) = Some (proposer p).

Definition ids_ok (st : State) : Prop :=
  forall k, is_Some (proposals st !! k) <-> 1 <= k <= proposal_counter st.

Definition active_ok (st : State) : Prop :=
  NoDup (active_proposals st) /\
  forall k, k ∈ active_proposals st <->
    exists p, proposals st !! k = Some p /\ executed p = false.

Definition inv2 (st : State) : Prop :=
  inv st /\ admins_nodup st /\ approvals_ok st /\ ids_ok st /\ active_ok st.

Lemma inv2_initialize admin wallet fee contract :
  inv2 (initialize admin wallet fee contract).
Proof.
  split; [apply inv_initialize|]. split; [|split; [|split]].
  - unfold admins_nodup. simpl. apply NoDup_cons. split; [set_solver | constructor].
  - intros k p H. simpl in H. rewrite lookup_empty in H. done.
  - intros k. simpl. rewrite lookup_empty. split; [intros [? H]; done | lia].
  - split; [constructor|]. intros k. simpl. rewrite lookup_empty. split.
    + intros H. inversion H.
    + intros (p & H & _). done.
Qed.

Lemma admins_nodup_run_call c st : admins_nodup st -> admins_nodup (run_call c st).
Proof.
  unfold admins_nodup. intros Hn.
  destruct c as [w k x n | w i n | w i n]; unfold_calls.
  - destruct k; split_calls.
  - split_calls.
  - split_calls.
    all: first [by apply NoDup_snoc_mem | by apply NoDup_remove_first].
Qed.

Lemma approvals_ok_run_call c st : inv st -> approvals_ok st -> approvals_ok (run_call c st).
Proof.
  intros [_ Hs] Ha.
  destruct c as [w k x n | w i n | w i n]; unfold_calls.
  - destruct k; split_calls; intros k' q Hk; cbn in Hk;
      apply lookup_insert_Some in Hk as [[<- <-]|[_ Hk]];
      [simpl; split; [apply NoDup_singleton | done] | by apply (Ha k') |
       simpl; split; [apply NoDup_singleton | done] | by apply (Ha k') |
       simpl; split; [apply NoDup_singleton | done] | by apply (Ha k') |
       simpl; split; [apply NoDup_singleton | done] | by apply (Ha k') ].
  - split_calls. intros k' q Hk; cbn in Hk.
    apply lookup_insert_Some in Hk as [[<- <-]|[_ Hk]]; [|by apply (Ha k')].
    match goal with H : proposals _ !! _ = Some ?p |- _ =>
      destruct (Ha _ _ H) as [Hn Hh] end.
    simpl. split.
    + by apply NoDup_snoc_mem.
    + destruct (approvals p); simpl in *; done.
  - split_calls; intros k' q Hk; cbn in Hk;
      apply lookup_insert_Some in Hk as [[<- <-]|[_ Hk]].
    all: first [ match goal with H : proposals _ !! _ = Some ?p |- context [mark_executed ?p] =>
                   destruct (Ha _ _ H); simpl; done end
               | apply (Ha _ _ Hk) ].
Qed.

Lemma ids_ok_run_call c st : inv st -> ids_ok st -> ids_ok (run_call c st).
Proof.
  intros [_ Hs] Hi. unfold ids_ok in *.
  destruct c as [w k x n | w i n | w i n]; unfold_calls.
  - destruct k; split_calls; intros k'; cbn; rewrite lookup_insert_is_Some', Hi; lia.
  - split_calls. intros k'; cbn. rewrite lookup_insert_is_Some', <- Hi.
    match goal with H : proposals _ !! _ = Some ?p |- _ =>
      destruct (Hs _ _ H) as [Hq _]; rewrite Hq end.
    split; [intros [<-|H']; [eauto|done] | auto].
  - split_calls; intros k'; cbn; rewrite lookup_insert_is_Some', <- Hi;
    (match goal with H : proposals _ !! _ = Some ?p |- context [proposal_id ?p] =>
      destruct (Hs _ _ H) as [Hq _]; rewrite Hq end);
    (split; [intros [<-|H']; [eauto|done] | auto]).
Qed.

Lemma active_ok_run_call c st : inv st -> ids_ok st -> active_ok st -> active_ok (run_call c st).
Proof.
  intros [_ Hs] Hi [Hn Ha]. unfold active_ok.
  destruct c as [w k x n | w i n | w i n]; unfold_calls.
  - assert (Hfresh : S (proposal_counter st) ∉ active_proposals st).
    { intros Hin. apply Ha in Hin as (p & Hp & _). destruct (Hs _ _ Hp). lia. }
    destruct k; split_calls; (split; [apply NoDup_app; split; [done|];
        split; [intros a Ha1 Ha2; apply list_elem_of_singleton in Ha2; subst; done
               | apply NoDup_singleton] |]);
      intros k'; cbn; rewrite elem_of_app, list_elem_of_singleton, Ha;
      (destruct (decide (k' = S (proposal_counter s))) as [->|Hne];
       [rewrite lookup_insert_eq; split; [eauto | auto]
       | rewrite lookup_insert_ne by congruence; split; [intros [Hx|Hx]; [done|lia] | auto]]).
  - split_calls. split; [done|]. intros k'; cbn. rewrite Ha.
    match goal with H : proposals _ !! _ = Some ?p |- _ =>
      destruct (Hs _ _ H) as [Hq _]; rename H into Hp end.
    destruct (decide (proposal_id p = k')) as [<-|Hne].
    + rewrite lookup_insert_eq, Hq, Hp. simpl. split; intros (q & Hq' & Hx); eauto;
        simplify_eq; eauto.
    + rewrite lookup_insert_ne by done. done.
  - split_calls; (split; [by apply NoDup_filter|]); intros k'; cbn;
      rewrite list_elem_of_filter, Ha;
    (match goal with H : proposals _ !! _ = Some ?p |- context [proposal_id ?p] =>
      destruct (Hs _ _ H) as [Hq _]; rename H into Hp end);
    (destruct (decide (proposal_id p = k')) as [<-|Hne];
     [rewrite lookup_insert_eq; simpl; split; [intros [Hk _]; congruence
                                              | intros (q & Hq' & Hx); simplify_eq]
     | rewrite lookup_insert_ne by done; split; [intros [_ Hy]; exact Hy | intros Hy; split; [congruence|exact Hy]]]).
Qed.

Lemma inv2_run_call c st : inv2 st -> inv2 (run_call c st).
Proof.
  intros (Hi & Ha & Hp & Hd & Hc). split; [by apply inv_run_call|].
  split; [by apply admins_nodup_run_call|]. split; [by apply approvals_ok_run_call|].
  split; [by apply ids_ok_run_call | by apply active_ok_run_call].
Qed.

Lemma reachable_inv2 st : reachable st -> inv2 st.
Proof.
  induction 1; [apply inv2_initialize | by apply inv2_run_call].
Qed.

Lemma proposal_extends_refl p : proposal_extends p p.
Proof. repeat split; auto. exists []. by rewrite app_nil_r. Qed.

Lemma proposal_extends_trans p1 p2 p3 :
  proposal_extends p1 p2 -> proposal_extends p2 p3 -> proposal_extends p1 p3.
Proof.
  intros (H1 & H2 & H3 & H4 & H5 & [l1 H6] & H7) (G1 & G2 & G3 & G4 & G5 & [l2 G6] & G7).
  repeat split; try congruence; auto.
  exists (l1 ++ l2). by rewrite G6, H6, app_assoc.
Qed.

Ltac extends_tac :=
  red; simpl;
  repeat match goal with |- _ /\ _ => split end; auto;
  first [ eexists; reflexivity | exists []; by rewrite app_nil_r ].

Lemma lookup_run_call_extends c st pid p :
  inv st -> proposals st !! pid = Some p ->
  exists p', proposals (run_call c st) !! pid = Some p' /\ proposal_extends p p'.
Proof.
  intros [_ Hs] Hp.
  destruct c as [w k x n | w i n | w i n]; unfold_calls.
  - destruct (Hs _ _ Hp) as [_ Hle].
    destruct k; split_calls; try (exists p; split; [done | apply proposal_extends_refl]); cbn;
      rewrite lookup_insert_ne by lia; (exists p; split; [done | apply proposal_extends_refl]).
  - split_calls; try (exists p; split; [done | apply proposal_extends_refl]); cbn.
    all: insert_cases Hs Hp; [eexists; split; [reflexivity|]; extends_tac
      | exists p; split; [done | apply proposal_extends_refl]].
  - split_calls; try (exists p; split; [done | apply proposal_extends_refl]); cbn.
    all: insert_cases Hs Hp; [eexists; split; [reflexivity|]; extends_tac
      | exists p; split; [done | apply proposal_extends_refl]].
Qed.

Lemma lookup_run_calls_extends cs st pid p :
  inv st -> proposals st !! pid = Some p ->
  exists p', proposals (run_calls cs st) !! pid = Some p' /\ proposal_extends p p'.
Proof.
  revert st p; induction cs as [|c cs IH]; simpl; intros st p Hi Hp.
  - exists p. split; [done | apply proposal_extends_refl].
  - destruct (lookup_run_call_extends c st pid p Hi Hp) as (p1 & H1 & E1).
    destruct (IH (run_call c st) p1 (inv_run_call c st Hi) H1) as (p2 & H2 & E2).
    exists p2. split; [done | by apply (proposal_extends_trans _ p1)].
Qed.

Lemma count_valid_approvals_le p cfg :
  count_valid_approvals p cfg <= length (approvals p).
Proof. unfold count_valid_approvals. apply length_filter. Qed.

Lemma count_valid_approvals_all p cfg :
  Forall (fun a => is_admin_in cfg a = true) (approvals p) ->
  count_valid_approvals p cfg = length (approvals p).
Proof.
  unfold count_valid_approvals. generalize (approvals p) as l.
  intros l H. f_equal. induction H as [|a l Ha _ IH]; [done|].
  rewrite filter_cons_True by done. by f_equal.
Qed.
Lemma create_keeps_settings w k e n st :
  multisig_config (after (create_proposal w k e n) st) = multisig_config st /\
  platform_wallet (after (create_proposal w k e n) st) = platform_wallet st.
Proof. unfold_calls. destruct k; split_calls. Qed.

Lemma approve_keeps_settings w i n st :
  multisig_config (after (approve_proposal w i n) st) = multisig_config st /\
  platform_wallet (after (approve_proposal w i n) st) = platform_wallet st.
Proof. unfold_calls. split_calls. Qed.

Lemma execute_err_noop w i n st e :
  result (execute_proposal w i n) st = Err e -> after (execute_proposal w i n) st = st.
Proof. unfold_calls. split_calls. Qed.

Lemma execute_ok_checks w i n st :
  result (execute_proposal w i n) st = Ok tt ->
  exists p, proposals st !! i = Some p /\ executed p = false /\
    is_expired p n = false /\ is_admin_in (multisig_config st) w = true /\
    threshold (multisig_config st) <= count_valid_approvals p (multisig_config st).
Proof.
  unfold_calls. split_calls; intros _; bool_arith; eexists; repeat split; eauto.
Qed.

(** Extra: in every reachable state the admin list has no duplicates
    ([add_admin_internal] refuses an existing admin, removal deletes the
    single occurrence). *)
Lemma reachable_admins_distinct st :
  reachable st -> NoDup (admins (multisig_config st)).
Proof. intros H. apply reachable_inv2 in H as (_ & Ha & _). exact Ha. Qed.

(** Extra: in every reachable state each stored proposal lists every
    approver at most once, and its first approval is its proposer's. *)
Lemma reachable_approvals_distinct st k p :
  reachable st -> proposals st !! k = Some p ->
  NoDup (approvals p) /\ hd_error (approvals p) = Some (proposer p).
Proof. intros H Hp. apply reachable_inv2 in H as (_ & _ & Ha & _). exact (Ha k p Hp). Qed.

(** Extra: in every reachable state [get_proposal k] fails with
    [ProposalNotFound] exactly when [k] is 0 or above the proposal counter:
    ids are handed out densely from 1 and never deleted. *)
Lemma reachable_get_proposal_not_found st k :
  reachable st ->
  (result (get_proposal k) st = Err ProposalNotFound <->
   k = 0 \/ proposal_counter st < k).
Proof.
  intros H. apply reachable_inv2 in H as (_ & _ & _ & Hi & _).
  specialize (Hi k). unfold result, get_proposal.
  destruct (proposals st !! k) eqn:Hk; simpl.
  - assert (1 <= k <= proposal_counter st) by (apply Hi; eauto). split; [done | lia].
  - split; [intros _ | done]. destruct (decide (1 <= k <= proposal_counter st)) as [Hr|Hr].
    + apply Hi in Hr as [q Hq]. congruence.
    + lia.
Qed.

(** Extra: in every reachable state the active index has no duplicates
    and lists exactly the ids of the stored proposals not yet executed. *)
Lemma reachable_active_index st :
  reachable st ->
  NoDup (active_proposals st) /\
  forall k, k ∈ active_proposals st <->
    exists p, proposals st !! k = Some p /\ executed p = false.
Proof. intros H. apply reachable_inv2 in H as (_ & _ & _ & _ & Ha). exact Ha. Qed.

(** Extra: after any sequence of calls a stored proposal is still stored
    with the same id, kind, proposer, creation ledger and expiry; its
    approvals have only been extended at the end, and an executed one stays
    executed. *)
Lemma reachable_proposal_history st cs k p :
  reachable st -> proposals st !! k = Some p ->
  exists p', proposals (run_calls cs st) !! k = Some p' /\ proposal_extends p p'.
Proof.
  intros H Hp. apply reachable_inv2 in H as (Hi & _).
  exact (lookup_run_calls_extends cs st k p Hi Hp).
Qed.

(** Extra: a call that changes the multisig configuration or the platform
    wallet is a successful [execute_proposal] of a stored, unexecuted,
    unexpired proposal, by a current admin, after at least [threshold]
    distinct current admins approved it. *)
Lemma settings_change_requires_quorum c st :
  reachable st ->
  multisig_config (run_call c st) <> multisig_config st \/
  platform_wallet (run_call c st) <> platform_wallet st ->
  exists w i n p, c = CExecute w i n /\
    result (execute_proposal w i n) st = Ok tt /\
    proposals st !! i = Some p /\ executed p = false /\
    is_expired p n = false /\ is_admin_in (multisig_config st) w = true /\
    NoDup (filter (fun a => is_admin_in (multisig_config st) a = true) (approvals p)) /\
    threshold (multisig_config st) <=
      length (filter (fun a => is_admin_in (multisig_config st) a = true) (approvals p)).
Proof.
  intros Hr Hc. destruct c as [w k x n | w i n | w i n]; simpl in Hc.
  - destruct (create_keeps_settings w k x n st) as [E1 E2]. tauto.
  - destruct (approve_keeps_settings w i n st) as [E1 E2]. tauto.
  - destruct (result (execute_proposal w i n) st) as [[]|e] eqn:He.
    + destruct (execute_ok_checks w i n st He) as (p & Hp & Hx & Hy & Ha & Hq).
      exists w, i, n, p. repeat split; auto.
      apply NoDup_filter.
      apply reachable_inv2 in Hr as (_ & _ & Hap & _). by apply (Hap i p Hp).
    + rewrite (execute_err_noop w i n st e He) in Hc. tauto.
Qed.

(** Extra: every successful create, approve or execute call was made by an
    address that was an admin when the call started. *)
Lemma successful_call_by_admin c st :
  call_error c st = None -> is_admin_in (multisig_config st) (call_caller c) = true.
Proof.
  destruct c as [w k x n | w i n | w i n]; unfold_calls; [destruct k|..]; split_calls; intros _; bool_arith; done.
Qed.

(** Extra: the client-side check [can_execute] of the quick reference is
    necessary for execution (when it is false the contract refuses with
    [InsufficientApprovals]); it is also sufficient for passing the
    approval check when every approver is still an admin. *)
Lemma can_execute_vs_contract w i n st p :
  proposals st !! i = Some p -> executed p = false -> is_expired p n = false ->
  is_admin_in (multisig_config st) w = true ->
  (can_execute p (multisig_config st) = false ->
   result (execute_proposal w i n) st = Err InsufficientApprovals) /\
  (Forall (fun a => is_admin_in (multisig_config st) a = true) (approvals p) ->
   can_execute p (multisig_config st) = true ->
   result (execute_proposal w i n) st <> Err InsufficientApprovals).
Proof.
  intros Hp He Hx Ha.
  pose proof (count_valid_approvals_le p (multisig_config st)) as Hle.
  unfold can_execute. split.
  - intros Hc. bool_arith. unfold result, execute_proposal, bind, get_proposal.
    rewrite Hp, He, Hx. unfold get_multisig_config. rewrite Ha. simpl.
    replace (count_valid_approvals p (multisig_config st) <? threshold (multisig_config st))
      with true by (symmetry; apply Nat.ltb_lt; lia). done.
  - intros Hall Hc. bool_arith. rewrite (count_valid_approvals_all p _ Hall) in Hle.
    unfold result, execute_proposal, bind, get_proposal.
    rewrite Hp, He, Hx. unfold get_multisig_config. rewrite Ha. simpl.
    rewrite (count_valid_approvals_all p _ Hall).
    replace (length (approvals p) <? threshold (multisig_config st))
      with false by (symmetry; apply Nat.ltb_ge; lia).
    destruct (proposal_type p); unfold_calls; split_calls.
Qed.

Section execution_past_checks.
Variables (w : Address) (i n : nat) (st : State) (p : Proposal).
Hypotheses (Hp : proposals st !! i = Some p) (He : executed p = false)
  (Hx : is_expired p n = false) (Ha : is_admin_in (multisig_config st) w = true)
  (Hq : threshold (multisig_config st) <= count_valid_approvals p (multisig_config st)).

Lemma execute_past_checks :
  execute_proposal w i n st =
  (apply_proposal_type (proposal_type p) ;;;
   store_proposal (mark_executed p) ;;;
   remove_from_active_proposals i) st.
Proof.
  unfold execute_proposal, get_proposal, get_multisig_config, bind at 1.
  rewrite Hp. simpl. rewrite He, Hx. unfold bind at 1. simpl. rewrite Ha. simpl.
  replace (count_valid_approvals p (multisig_config st) <? threshold (multisig_config st))
    with false by (symmetry; apply Nat.ltb_ge; lia). done.
Qed.

(** Extra: executing a [SetThreshold t] proposal that passed the common
    checks succeeds exactly when [0 < t <= admin count] and then sets the
    threshold to [t], keeping the admins; otherwise it fails with
    [InvalidThreshold] and changes nothing. *)
Lemma execute_set_threshold t :
  proposal_type p = SetThreshold t ->
  (0 < t <= length (admins (multisig_config st)) ->
   result (execute_proposal w i n) st = Ok tt /\
   multisig_config (after (execute_proposal w i n) st) =
     {| admins := admins (multisig_config st); threshold := t |}) /\
  (~ (0 < t <= length (admins (multisig_config st))) ->
   result (execute_proposal w i n) st = Err InvalidThreshold /\
   after (execute_proposal w i n) st = st).
Proof.
  intros Ht. unfold result, after. rewrite execute_past_checks, Ht.
  unfold_calls. split; intros Hr; split_calls; bool_arith; lia.
Qed.

(** Extra: executing an [AddAdmin x] proposal that passed the common checks
    fails with [AdminAlreadyExists] and changes nothing when [x] is an admin,
    and otherwise appends [x] to the admins, keeping the threshold. *)
Lemma execute_add_admin x :
  proposal_type p = AddAdmin x ->
  (is_admin_in (multisig_config st) x = true ->
   result (execute_proposal w i n) st = Err AdminAlreadyExists /\
   after (execute_proposal w i n) st = st) /\
  (is_admin_in (multisig_config st) x = false ->
   result (execute_proposal w i n) st = Ok tt /\
   multisig_config (after (execute_proposal w i n) st) =
     {| admins := admins (multisig_config st) ++ [x];
        threshold := threshold (multisig_config st) |}).
Proof.
  intros Ht. unfold result, after. rewrite execute_past_checks, Ht.
  unfold_calls. split; intros Hr; rewrite Hr; simpl; auto.
Qed.

(** Extra: executing a [SetPlatformWallet x] proposal that passed the
    common checks fails with [InvalidAddress] and changes nothing when [x]
    is the contract's own address, and otherwise sets the platform wallet
    to [x] and leaves the multisig configuration alone. *)
Lemma execute_set_platform_wallet x :
  proposal_type p = SetPlatformWallet x ->
  (x = current_contract st ->
   result (execute_proposal w i n) st = Err InvalidAddress /\
   after (execute_proposal w i n) st = st) /\
  (x <> current_contract st ->
   result (execute_proposal w i n) st = Ok tt /\
   platform_wallet (after (execute_proposal w i n) st) = x /\
   multisig_config (after (execute_proposal w i n) st) = multisig_config st).
Proof.
  intros Ht. unfold result, after. rewrite execute_past_checks, Ht.
  unfold_calls. split; intros Hr.
  - subst x. rewrite Nat.eqb_refl. simpl. auto.
  - apply Nat.eqb_neq in Hr. rewrite Hr. simpl. auto.
Qed.

End execution_past_checks.

(** Extra: after a successful [RemoveAdmin x] execution in a reachable
    state, [x] is no longer an admin, every other address keeps its admin
    status, and at least one admin remains. *)
Lemma execute_remove_admin_membership w i n st p x :
  reachable st -> proposals st !! i = Some p -> proposal_type p = RemoveAdmin x ->
  result (execute_proposal w i n) st = Ok tt ->
  ~ In x (admins (multisig_config (after (execute_proposal w i n) st))) /\
  (forall a, a <> x ->
     In a (admins (multisig_config (after (execute_proposal w i n) st))) <->
     In a (admins (multisig_config st))) /\
  1 <= length (admins (multisig_config (after (execute_proposal w i n) st))).
Proof.
  intros Hr Hp Ht Hok.
  apply reachable_inv2 in Hr as (_ & Hnd & _).
  destruct (execute_ok_checks w i n st Hok) as (q & Hq & He & Hx & Ha & Hc).
  rewrite Hp in Hq. injection Hq as <-.
  revert Hok. unfold result, after. rewrite (execute_past_checks w i n st p), Ht by done.
  unfold_calls. split_calls; intros _; bool_arith.
  rewrite length_remove_first by (by apply mem_true). split; [|split].
  - rewrite remove_first_In_iff by done. tauto.
  - intros a Hax. rewrite remove_first_In_iff by done. tauto.
  - lia.
Qed.

(** Extra: a successful execution in a reachable state stores the proposal
    marked executed under its id, drops exactly that id from the active
    index and leaves the proposal counter unchanged. *)
Lemma execute_ok_effects w i n st :
  reachable st -> result (execute_proposal w i n) st = Ok tt ->
  exists p, proposals st !! i = Some p /\
    proposals (after (execute_proposal w i n) st) = <[i := mark_executed p]> (proposals st) /\
    active_proposals (after (execute_proposal w i n) st) =
      filter (fun j => j <> i) (active_proposals st) /\
    proposal_counter (after (execute_proposal w i n) st) = proposal_counter st /\
    i ∉ active_proposals (after (execute_proposal w i n) st).
Proof.
  intros Hr Hok. apply reachable_inv2 in Hr as ((_ & Hs) & _).
  destruct (execute_ok_checks w i n st Hok) as (p & Hp & He & Hx & Ha & Hc).
  destruct (Hs i p Hp) as [Hid _].
  exists p. split; [done|]. revert Hok. unfold result, after.
  rewrite (execute_past_checks w i n st p) by done.
  destruct (proposal_type p); unfold_calls; split_calls; intros _;
    try rewrite Hid; repeat split; auto;
    rewrite list_elem_of_filter; tauto.
Qed.

(** Extra: a successful approval came from an address not yet among the
    proposal's approvals; it appends that address to the approvals and
    writes nothing else (configuration, wallet, active index and counter
    unchanged). *)
Lemma approve_ok_effects w i n st :
  result (approve_proposal w i n) st = Ok tt ->
  exists p, proposals st !! i = Some p /\ ~ In w (approvals p) /\
    proposals (after (approve_proposal w i n) st) =
      <[proposal_id p := with_approvals p (approvals p ++ [w])]> (proposals st) /\
    multisig_config (after (approve_proposal w i n) st) = multisig_config st /\
    platform_wallet (after (approve_proposal w i n) st) = platform_wallet st /\
    active_proposals (after (approve_proposal w i n) st) = active_proposals st /\
    proposal_counter (after (approve_proposal w i n) st) = proposal_counter st.
Proof.
  unfold result, after, approve_proposal, get_proposal, bind.
  destruct (proposals st !! i) as [p|] eqn:Hp; simpl; [|done].
  destruct (executed p), (is_expired p n); simpl; try done.
  unfold get_multisig_config. simpl.
  destruct (is_admin_in (multisig_config st) w); simpl; [|done].
  destruct (mem w (approvals p)) eqn:Hm; simpl; [done|].
  intros _. exists p. repeat split; auto.
  intros Hin. apply mem_true in Hin. congruence.
Qed.

(** Extra: for an admin proposer, [create_proposal] refuses at creation an
    [AddAdmin] of an existing admin ([InvalidProposalType], or
    [InvalidAddress] for the contract's address), any proposal naming the
    contract's own address ([InvalidAddress]), a [RemoveAdmin] of a
    non-admin and a [SetThreshold 0] ([InvalidProposalType]). *)
Lemma create_proposal_validation w e now st :
  is_admin_in (multisig_config st) w = true ->
  (forall x, is_admin_in (multisig_config st) x = true ->
     result (propose_add_admin w x e now) st =
       Err (if x =? current_contract st then InvalidAddress else InvalidProposalType)) /\
  result (propose_add_admin w (current_contract st) e now) st = Err InvalidAddress /\
  result (propose_set_platform_wallet w (current_contract st) e now) st = Err InvalidAddress /\
  (forall x, is_admin_in (multisig_config st) x = false ->
     result (propose_remove_admin w x e now) st = Err InvalidProposalType) /\
  result (propose_set_threshold w 0 e now) st = Err InvalidProposalType.
Proof.
  intros Hw. unfold propose_add_admin, propose_set_platform_wallet,
    propose_remove_admin, propose_set_threshold.
  unfold_calls. rewrite Hw. simpl. rewrite Nat.eqb_refl. simpl.
  repeat split; intros x Hx; rewrite Hx; simpl; [|done].
  destruct (x =? current_contract st); done.
Qed.

(** Extra: a non-admin's [create_proposal] fails with [Unauthorized],
    whatever the proposal, and leaves the storage unchanged. *)
Lemma create_proposal_unauthorized w k e now st :
  is_admin_in (multisig_config st) w = false ->
  result (create_proposal w k e now) st = Err Unauthorized /\
  after (create_proposal w k e now) st = st.
Proof. intros Hw. unfold_calls. rewrite Hw. done. Qed.

(** Extra: with threshold 1, an admin alone adds a new admin: proposing an
    [AddAdmin x] for a non-admin [x] other than the contract and executing
    it at once succeeds, appending [x] with the threshold still 1. *)
Lemma add_admin_with_threshold_one w x e now st :
  threshold (multisig_config st) = 1 ->
  is_admin_in (multisig_config st) w = true ->
  is_admin_in (multisig_config st) x = false ->
  x <> current_contract st ->
  result (propose_add_admin w x e now) st = Ok (S (proposal_counter st)) /\
  result (execute_proposal w (S (proposal_counter st)) now)
    (after (propose_add_admin w x e now) st) = Ok tt /\
  multisig_config (after (execute_proposal w (S (proposal_counter st)) now)
                    (after (propose_add_admin w x e now) st)) =
    {| admins := admins (multisig_config st) ++ [x]; threshold := 1 |}.
Proof.
  intros Ht Hw Hx Hc. apply Nat.eqb_neq in Hc.
  unfold propose_add_admin. unfold_calls.
  rewrite Hw; simpl. rewrite Hc; simpl. rewrite Hx; simpl.
  rewrite lookup_insert_eq. simpl.
  match goal with |- context [is_expired ?q now] =>
    replace (is_expired q now) with false
      by (unfold is_expired, expiry_of; simpl; destruct (e =? 0); [done|];
          symmetry; apply Nat.ltb_ge; lia) end.
  simpl. rewrite Hw. simpl. unfold count_valid_approvals. simpl.
  rewrite filter_cons_True by done. simpl. rewrite Ht. simpl. rewrite Hx. simpl. auto.
Qed.

Lemma StronglySorted_filter_lt (P : nat -> Prop) `{!forall x, Decision (P x)} l :
  StronglySorted lt l -> StronglySorted lt (filter P l).
Proof.
  induction 1 as [|a l Hs IH Hf]; [constructor|].
  rewrite filter_cons. case_decide; [|done].
  constructor; [done|]. apply Forall_forall. intros y Hy.
  rewrite list_elem_of_filter in Hy. destruct Hy as [_ Hy].
  rewrite Forall_forall in Hf. by apply Hf.
Qed.

Lemma StronglySorted_snoc_lt l x :
  StronglySorted lt l -> Forall (fun y => y < x) l -> StronglySorted lt (l ++ [x]).
Proof.
  induction 1 as [|a l Hs IH Hf]; simpl; intros Hx.
  - repeat constructor.
  - inversion Hx; subst. constructor; [by apply IH|].
    apply Forall_app. split; [done|]. by constructor.
Qed.

Lemma active_shape c st :
  active_proposals (run_call c st) = active_proposals st \/
  (exists i, active_proposals (run_call c st) = filter (fun j => j <> i) (active_proposals st)) \/
  active_proposals (run_call c st) = active_proposals st ++ [S (proposal_counter st)].
Proof. destruct c as [w k x n | w i n | w i n]; unfold_calls; [destruct k|..]; split_calls; eauto. Qed.

(** Extra: in every reachable state the active index is strictly
    increasing, i.e. it lists the pending proposals in creation order. *)
Lemma reachable_active_sorted st :
  reachable st -> StronglySorted lt (active_proposals st).
Proof.
  induction 1 as [admin wallet fee contract | c st Hr IH]; [constructor|].
  destruct (reachable_inv2 st Hr) as (_ & _ & _ & Hi & _ & Ha).
  destruct (active_shape c st) as [-> | [[i ->] | ->]]; [done | by apply StronglySorted_filter_lt|].
  apply StronglySorted_snoc_lt; [done|]. apply Forall_forall. intros k Hk.
  apply Ha in Hk as (p & Hp & _).
  assert (1 <= k <= proposal_counter st) by (apply Hi; eauto). lia.
Qed.

(* ------------------------------------------------------------------ *)
(** ** Witnesses of the further properties *)

Definition sB3a := run_calls [CCreate 1 (SetThreshold 1) 0 0; CApprove 2 3 0] sB.
Definition pB3a : Proposal :=
  {| proposal_id := 3; proposal_type := SetThreshold 1; proposer := 1;
     approvals := [1; 2]; created_at := 0; expires_at := None; executed := false |}.
Definition pW : Proposal :=
  {| proposal_id := 1; proposal_type := SetPlatformWallet 200; proposer := 1;
     approvals := [1]; created_at := 0; expires_at := None; executed := false |}.
Definition sW := after (create_proposal 1 (SetPlatformWallet 200) 0 0) sA.
Definition sC0 := run_calls [CCreate 1 (AddAdmin 2) 0 0; CExecute 1 1 0;
                             CCreate 1 (RemoveAdmin 2) 0 0] sA.
Definition pC2 : Proposal :=
  {| proposal_id := 2; proposal_type := RemoveAdmin 2; proposer := 1;
     approvals := [1]; created_at := 0; expires_at := None; executed := false |}.

Lemma reachable_sB3a : reachable sB3a.
Proof. apply reachable_run_calls, reachable_run_calls, reachable_init. Qed.

Lemma reachable_sC0 : reachable sC0.
Proof. apply reachable_run_calls, reachable_init. Qed.

Lemma reachable_admins_distinct_witness :
  reachable sB3a /\ NoDup (admins (multisig_config sB3a)).
Proof.
  split; [exact reachable_sB3a | apply (reachable_admins_distinct sB3a reachable_sB3a)].
Defined.

Lemma reachable_approvals_distinct_witness :
  proposals sB3a !! 3 = Some pB3a /\
  NoDup (approvals pB3a) /\ hd_error (approvals pB3a) = Some (proposer pB3a).
Proof.
  split; [vm_compute; reflexivity|].
  apply (reachable_approvals_distinct sB3a 3 pB3a reachable_sB3a).
  vm_compute; reflexivity.
Defined.

Lemma reachable_get_proposal_not_found_witness :
  result (get_proposal 4) sB3a = Err ProposalNotFound <->
  4 = 0 \/ proposal_counter sB3a < 4.
Proof. apply (reachable_get_proposal_not_found sB3a 4 reachable_sB3a). Defined.

Lemma reachable_active_index_witness :
  NoDup (active_proposals sB3a) /\
  forall k, k ∈ active_proposals sB3a <->
    exists p, proposals sB3a !! k = Some p /\ executed p = false.
Proof. apply (reachable_active_index sB3a reachable_sB3a). Defined.

Lemma reachable_proposal_history_witness :
  proposals sB3a !! 3 = Some pB3a /\
  exists p', proposals (run_calls [CExecute 1 3 0; CApprove 1 3 0] sB3a) !! 3 = Some p' /\
    proposal_extends pB3a p'.
Proof.
  split; [vm_compute; reflexivity|].
  apply (reachable_proposal_history sB3a [CExecute 1 3 0; CApprove 1 3 0] 3 pB3a
           reachable_sB3a).
  vm_compute; reflexivity.
Defined.

Lemma settings_change_requires_quorum_witness :
  multisig_config (run_call (CExecute 1 3 0) sB3a) <> multisig_config sB3a /\
  exists w i n p, CExecute 1 3 0 = CExecute w i n /\
    result (execute_proposal w i n) sB3a = Ok tt /\
    proposals sB3a !! i = Some p /\ executed p = false /\
    is_expired p n = false /\ is_admin_in (multisig_config sB3a) w = true /\
    NoDup (filter (fun a => is_admin_in (multisig_config sB3a) a = true) (approvals p)) /\
    threshold (multisig_config sB3a) <=
      length (filter (fun a => is_admin_in (multisig_config sB3a) a = true) (approvals p)).
Proof.
  assert (H : multisig_config (run_call (CExecute 1 3 0) sB3a) <> multisig_config sB3a)
    by (vm_compute; discriminate).
  split; [exact H|].
  apply (settings_change_requires_quorum (CExecute 1 3 0) sB3a reachable_sB3a).
  left; exact H.
Defined.

Lemma successful_call_by_admin_witness :
  call_error (CApprove 2 3 0) sB3 = None /\
  is_admin_in (multisig_config sB3) 2 = true.
Proof.
  assert (H : call_error (CApprove 2 3 0) sB3 = None) by (vm_compute; reflexivity).
  split; [exact H | apply (successful_call_by_admin (CApprove 2 3 0) sB3 H)].
Defined.

Lemma can_execute_vs_contract_witness :
  can_execute pB3 (multisig_config sB3) = false /\
  result (execute_proposal 1 3 0) sB3 = Err InsufficientApprovals.
Proof.
  assert (H : can_execute pB3 (multisig_config sB3) = false) by (vm_compute; reflexivity).
  split; [exact H|].
  refine (proj1 (can_execute_vs_contract 1 3 0 sB3 pB3 _ _ _ _) H);
    vm_compute; reflexivity.
Defined.

Lemma execute_set_threshold_witness :
  result (execute_proposal 1 3 0) sB3a = Ok tt /\
  multisig_config (after (execute_proposal 1 3 0) sB3a) =
    {| admins := admins (multisig_config sB3a); threshold := 1 |}.
Proof.
  refine (proj1 (execute_set_threshold 1 3 0 sB3a pB3a _ _ _ _ _ 1 _) _);
    vm_compute; (reflexivity || lia).
Defined.

Lemma execute_add_admin_witness :
  result (execute_proposal 1 1 0) sA1c = Ok tt /\
  multisig_config (after (execute_proposal 1 1 0) sA1c) =
    {| admins := admins (multisig_config sA1c) ++ [2];
       threshold := threshold (multisig_config sA1c) |}.
Proof.
  refine (proj2 (execute_add_admin 1 1 0 sA1c pA1 _ _ _ _ _ 2 _) _);
    vm_compute; (reflexivity || lia).
Defined.

Lemma execute_set_platform_wallet_witness :
  result (execute_proposal 1 1 0) sW = Ok tt /\
  platform_wallet (after (execute_proposal 1 1 0) sW) = 200 /\
  multisig_config (after (execute_proposal 1 1 0) sW) = multisig_config sW.
Proof.
  refine (proj2 (execute_set_platform_wallet 1 1 0 sW pW _ _ _ _ _ 200 _) _);
    vm_compute; (reflexivity || lia || discriminate).
Defined.

Lemma execute_remove_admin_membership_witness :
  ~ In 2 (admins (multisig_config (after (execute_proposal 1 2 0) sC0))) /\
  (forall a, a <> 2 ->
     In a (admins (multisig_config (after (execute_proposal 1 2 0) sC0))) <->
     In a (admins (multisig_config sC0))) /\
  1 <= length (admins (multisig_config (after (execute_proposal 1 2 0) sC0))).
Proof.
  apply (execute_remove_admin_membership 1 2 0 sC0 pC2 2 reachable_sC0);
    vm_compute; reflexivity.
Defined.

Lemma execute_ok_effects_witness :
  exists p, proposals sC0 !! 2 = Some p /\
    proposals (after (execute_proposal 1 2 0) sC0) = <[2 := mark_executed p]> (proposals sC0) /\
    active_proposals (after (execute_proposal 1 2 0) sC0) =
      filter (fun j => j <> 2) (active_proposals sC0) /\
    proposal_counter (after (execute_proposal 1 2 0) sC0) = proposal_counter sC0 /\
    2 ∉ active_proposals (after (execute_proposal 1 2 0) sC0).
Proof.
  apply (execute_ok_effects 1 2 0 sC0 reachable_sC0). vm_compute; reflexivity.
Defined.

Lemma approve_ok_effects_witness :
  exists p, proposals sB3 !! 3 = Some p /\ ~ In 2 (approvals p) /\
    proposals (after (approve_proposal 2 3 0) sB3) =
      <[proposal_id p := with_approvals p (approvals p ++ [2])]> (proposals sB3) /\
    multisig_config (after (approve_proposal 2 3 0) sB3) = multisig_config sB3 /\
    platform_wallet (after (approve_proposal 2 3 0) sB3) = platform_wallet sB3 /\
    active_proposals (after (approve_proposal 2 3 0) sB3) = active_proposals sB3 /\
    proposal_counter (after (approve_proposal 2 3 0) sB3) = proposal_counter sB3.
Proof. apply (approve_ok_effects 2 3 0 sB3). vm_compute; reflexivity. Defined.

Lemma create_proposal_validation_witness :
  result (propose_add_admin 1 2 0 0) sB = Err InvalidProposalType /\
  result (propose_set_threshold 1 0 0 0) sB = Err InvalidProposalType.
Proof.
  destruct (create_proposal_validation 1 0 0 sB) as (H1 & _ & _ & _ & H5);
    [vm_compute; reflexivity|].
  split; [apply (H1 2); vm_compute; reflexivity | exact H5].
Defined.

Lemma create_proposal_unauthorized_witness :
  result (create_proposal 7 (SetThreshold 1) 0 0) sA = Err Unauthorized /\
  after (create_proposal 7 (SetThreshold 1) 0 0) sA = sA.
Proof. apply create_proposal_unauthorized. vm_compute; reflexivity. Defined.

Lemma add_admin_with_threshold_one_witness :
  result (propose_add_admin 1 2 10 0) sA = Ok (S (proposal_counter sA)) /\
  result (execute_proposal 1 (S (proposal_counter sA)) 0)
    (after (propose_add_admin 1 2 10 0) sA) = Ok tt /\
  multisig_config (after (execute_proposal 1 (S (proposal_counter sA)) 0)
                    (after (propose_add_admin 1 2 10 0) sA)) =
    {| admins := admins (multisig_config sA) ++ [2]; threshold := 1 |}.
Proof.
  apply add_admin_with_threshold_one; try (vm_compute; reflexivity).
  vm_compute; discriminate.
Defined.

(** Three proposals created on [sB], the middle one executed. *)
Definition sM := run_calls [CCreate 1 (SetThreshold 1) 0 0; CCreate 1 (SetThreshold 2) 0 0;
                            CCreate 2 (AddAdmin 3) 0 0; CApprove 2 4 0; CExecute 1 4 0] sB.

Lemma reachable_sM : reachable sM.
Proof. apply reachable_run_calls, reachable_run_calls, reachable_init. Qed.

Lemma reachable_active_sorted_witness :
  active_proposals sM = [3; 5] /\ StronglySorted lt (active_proposals sM).
Proof.
  split; [vm_compute; reflexivity|].
  apply (reachable_active_sorted sM reachable_sM).
Defined.
